(** * switchlike: a value-returning, predicate-driven switch

    Shallow embedding of [src/c++/src/switchlike.cpp] and the properties of
    its dispatch loop.

    The C++ function receives three kinds of callables (the case bodies, the
    default body and the predicate), all of them [std::function]s that may
    read and write the program state and may throw.  They are embedded as
    computations in a state-and-exception monad over an arbitrary [world];
    [switchlike] itself is the loop of lines 132-138 written in that monad. *)

From Stdlib Require Import List ZArith Lia Bool.
From Stdlib Require String.
Import ListNotations.

Set Implicit Arguments.

(** ** Calls that may throw *)

(** What a call yields: a returned value or a thrown exception. *)
Inductive outcome (exn A : Type) : Type :=
| Returned (a : A)
| Raised (e : exn).

Arguments Returned {exn A} a.
Arguments Raised {exn A} e.

(** A computation: from the state before the call to what the call yields and
    the state it leaves behind. *)
Definition M (world exn A : Type) : Type := world -> outcome exn A * world.

Definition ret {world exn A : Type} (a : A) : M world exn A :=
  fun w => (Returned a, w).

Definition throw {world exn A : Type} (e : exn) : M world exn A :=
  fun w => (Raised e, w).

(** Sequencing: a thrown exception skips the rest, as stack unwinding does in
    a function without [try]. *)
Definition bind {world exn A B : Type}
  (m : M world exn A) (k : A -> M world exn B) : M world exn B :=
  fun w =>
    match m w with
    | (Returned a, w') => k a w'
    | (Raised e, w') => (Raised e, w')
    end.

Declare Scope switch_scope.
Delimit Scope switch_scope with switch.
Notation "x <- m ;; k" := (bind m (fun x => k))
  (at level 61, m at next level, right associativity) : switch_scope.
Local Open Scope switch_scope.

(** [std::function<R()>]: a callable without arguments. *)
Definition std_function (world exn R : Type) : Type := M world exn R.

(** ** What the template requires of its type arguments *)

(** An implicit conversion from one type to another, as used when a
    [std::pair<case_type, F>] initialises a [std::pair<input_type, F>] and
    when an [input_type] is passed for a [case_type] parameter. *)
Class Convertible (From To : Type) : Type := convert : From -> To.

(** [operator==] with a left operand of type [L] and a right operand of type
    [R]; a total boolean test, as it is for the types the source uses
    ([std::string], [int]). *)
Class EqualityComparable (L R : Type) : Type := equal_to : L -> R -> bool.

(** Initialising a value from one of its own type copies it. *)
Definition copy (A : Type) : Convertible A A := fun a => a.

Arguments copy A : clear implicits.

(** ** The function *)

Section Switchlike.

Context {world exn : Type}.
Context {input_type case_type return_type : Type}.
Context {case_to_input : Convertible case_type input_type}.
Context {input_to_case : Convertible input_type case_type}.

(** The loop variable of line 132,
    [std::pair<input_type, std::function<return_type()>> caze], initialised
    from an element of [cases], whose type is
    [std::pair<case_type, std::function<return_type()>>]. *)
Definition caze_of (c : case_type * std_function world exn return_type)
  : input_type * std_function world exn return_type :=
  (convert (fst c), snd c).

(** The second argument of the call [predicate(input, caze.first)] of line
    133: [caze.first] is an [input_type], the parameter is a [case_type]. *)
Definition seen_key (c : case_type * std_function world exn return_type)
  : case_type :=
  convert (fst (caze_of c)).

(** Lines 131-139. *)
Fixpoint switchlike
  (input : input_type)
  (cases : list (case_type * std_function world exn return_type))
  (default_func : std_function world exn return_type)
  (predicate : input_type -> case_type -> M world exn bool)
  : M world exn return_type :=
  match cases with
  | [] => default_func
  | c :: rest =>
      let caze := caze_of c in
      b <- predicate input (convert (fst caze)) ;;
      if b then snd caze
      else switchlike input rest default_func predicate
  end.

(** The default argument of [predicate], lines 127-130:
    [[] (input_type a, case_type b) { return b == a; }]. *)
Definition default_predicate {eq : EqualityComparable case_type input_type}
  : input_type -> case_type -> M world exn bool :=
  fun a b => ret (equal_to b a).

End Switchlike.

(** The default argument of [default_func], line 124: [[] (){}], a callable
    that returns nothing; it is a [std::function<return_type()>] only at
    [return_type = void]. *)
Definition default_default_func {world exn : Type}
  : std_function world exn unit :=
  ret tt.

(** ** Observing a call

    The source's own test observes which bodies run through their side
    effects ([pass], [fail]).  The same is done here: every callable handed
    to [switchlike] is wrapped so that each call appends a record to a log
    kept next to the caller's state.  The wrapped callables cannot read the
    log, and [switchlike] is the function defined above, run on them. *)

Section Observation.

Context {world exn : Type}.
Context {input_type case_type return_type : Type}.
Context {case_to_input : Convertible case_type input_type}.
Context {input_to_case : Convertible input_type case_type}.

(** One record per call made by [switchlike]: the callee, the arguments it
    received and what the call yielded.  Case bodies are named by their
    position in [cases], counted from 0. *)
Inductive event : Type :=
| PredicateCall (a : input_type) (b : case_type) (o : outcome exn bool)
| CaseCall (n : nat) (o : outcome exn return_type)
| DefaultCall (o : outcome exn return_type).

Definition observe {A : Type} (mk : outcome exn A -> event)
  (f : M world exn A) : M (world * list event) exn A :=
  fun s =>
    let (o, w') := f (fst s) in
    (o, (w', snd s ++ [mk o])).

Fixpoint observe_cases (n : nat)
  (cases : list (case_type * std_function world exn return_type))
  : list (case_type * std_function (world * list event) exn return_type) :=
  match cases with
  | [] => []
  | c :: rest => (fst c, observe (CaseCall n) (snd c)) :: observe_cases (S n) rest
  end.

Definition observe_predicate
  (predicate : input_type -> case_type -> M world exn bool)
  : input_type -> case_type -> M (world * list event) exn bool :=
  fun a b => observe (PredicateCall a b) (predicate a b).

(** A finished call: what it yielded, the state it left and the calls it
    made, oldest first. *)
Record run : Type := Run {
  result : outcome exn return_type;
  final : world;
  log : list event
}.

Definition observed_switchlike
  (input : input_type)
  (cases : list (case_type * std_function world exn return_type))
  (default_func : std_function world exn return_type)
  (predicate : input_type -> case_type -> M world exn bool)
  (w : world) : run :=
  let r := switchlike input (observe_cases 0 cases)
             (observe DefaultCall default_func)
             (observe_predicate predicate) (w, []) in
  Run (fst r) (fst (snd r)) (snd (snd r)).

(** *** Reading a log *)

Definition is_producer_call (ev : event) : bool :=
  match ev with
  | PredicateCall _ _ _ => false
  | CaseCall _ _ => true
  | DefaultCall _ => true
  end.

(** The calls of case bodies and of the default body. *)
Definition producer_calls (t : list event) : list event :=
  filter is_producer_call t.

(** What each predicate call yielded, in call order. *)
Fixpoint predicate_verdicts (t : list event) : list (outcome exn bool) :=
  match t with
  | [] => []
  | PredicateCall _ _ o :: t' => o :: predicate_verdicts t'
  | _ :: t' => predicate_verdicts t'
  end.

(** The arguments each predicate call received, in call order. *)
Fixpoint predicate_args (t : list event) : list (input_type * case_type) :=
  match t with
  | [] => []
  | PredicateCall a b _ :: t' => (a, b) :: predicate_args t'
  | _ :: t' => predicate_args t'
  end.

Definition raised {A : Type} (o : outcome exn A) : option exn :=
  match o with
  | Returned _ => None
  | Raised e => Some e
  end.

(** The exception a recorded call ended with, if it did. *)
Definition raised_by (ev : event) : option exn :=
  match ev with
  | PredicateCall _ _ o => raised o
  | CaseCall _ o => raised o
  | DefaultCall o => raised o
  end.

(** *** The shape of a call

    [dispatch input default_func predicate n cases w t o w'] : run from
    state [w] on [cases], whose first element has position [n], the loop
    makes the calls [t], yields [o] and leaves state [w'].  One rule per way
    through the loop body. *)
Inductive dispatch
  (input : input_type)
  (default_func : std_function world exn return_type)
  (predicate : input_type -> case_type -> M world exn bool)
  : nat -> list (case_type * std_function world exn return_type) ->
    world -> list event -> outcome exn return_type -> world -> Prop :=
| dispatch_default n w o w' :
    default_func w = (o, w') ->
    dispatch input default_func predicate n [] w [DefaultCall o] o w'
| dispatch_match n c rest w w1 o w' :
    predicate input (seen_key c) w = (Returned true, w1) ->
    snd c w1 = (o, w') ->
    dispatch input default_func predicate n (c :: rest) w
      [PredicateCall input (seen_key c) (Returned true); CaseCall n o] o w'
| dispatch_skip n c rest w w1 t o w' :
    predicate input (seen_key c) w = (Returned false, w1) ->
    dispatch input default_func predicate (S n) rest w1 t o w' ->
    dispatch input default_func predicate n (c :: rest) w
      (PredicateCall input (seen_key c) (Returned false) :: t) o w'
| dispatch_raise n c rest w e w' :
    predicate input (seen_key c) w = (Raised e, w') ->
    dispatch input default_func predicate n (c :: rest) w
      [PredicateCall input (seen_key c) (Raised e)] (Raised e) w'.

(** The record of a predicate call that rejected case [c]. *)
Definition rejected (input : input_type)
  (c : case_type * std_function world exn return_type) : event :=
  PredicateCall input (seen_key c) (Returned false).

(** The three ways a call can go, read off its log: a case was chosen after
    the cases [pre] before it were rejected; every case was rejected and the
    default body ran; or the predicate threw after rejecting [pre]. *)
Inductive shape (input : input_type) (n : nat)
  (cases : list (case_type * std_function world exn return_type))
  (t : list event) (o : outcome exn return_type) : Prop :=
| shape_case pre c post :
    cases = pre ++ c :: post ->
    t = map (rejected input) pre
        ++ [PredicateCall input (seen_key c) (Returned true);
            CaseCall (n + length pre) o] ->
    shape input n cases t o
| shape_default :
    t = map (rejected input) cases ++ [DefaultCall o] ->
    shape input n cases t o
| shape_raise pre c post e :
    cases = pre ++ c :: post ->
    t = map (rejected input) pre
        ++ [PredicateCall input (seen_key c) (Raised e)] ->
    o = Raised e ->
    shape input n cases t o.

(** *** The properties, as predicates on a finished call *)



End Observation.

Arguments event : clear implicits.
Arguments run : clear implicits.

(** ** Concrete instantiations

    The template at the types the source's test uses, and at a pair of
    distinct integer types. *)

Module Scenarios.

Import String.

(** What a callable may throw. *)
Inductive thrown : Type :=
| bad_function_call
| runtime_error (what : string).

(** [int]: the values used below are far from the bounds of the type, no
    arithmetic is done on them but [%]. *)
Definition int : Type := Z.

(** [unsigned char]: a value in [0, 256). *)
Definition unsigned_char : Type := Z.

(** [int] to [unsigned char]: reduction modulo 2^8. *)
Definition int_to_unsigned_char : Convertible int unsigned_char :=
  fun z => (z mod 256)%Z.

(** [unsigned char] to [int]: integral promotion, value preserving. *)
Definition unsigned_char_to_int : Convertible unsigned_char int :=
  fun z => z.

(** [int == int]. *)
Definition int_equal : EqualityComparable int int := Z.eqb.

(** [int == unsigned char]: the right operand is promoted to [int]. *)
Definition int_equal_unsigned_char : EqualityComparable int unsigned_char :=
  fun k i => Z.eqb k (unsigned_char_to_int i).

(** [std::string == std::string]. *)
Definition string_equal : EqualityComparable string string := String.eqb.

(** The journal of the test library the source includes ([BugEye.h]):
    [pass] and [fail] append a line. *)
Inductive line : Type :=
| ok (message : string)
| not_ok (message : string).

Definition right_case_for_foo : string := "Right case for foo".
Definition right_case_for_1 : string := "Right case for 1".
Definition foo : string := "foo".
Definition foobar : string := "foobar".

Definition pass (message : string) : std_function (list line) thrown unit :=
  fun w => (Returned tt, w ++ [ok message]).

Definition fail (message : string) : std_function (list line) thrown unit :=
  fun w => (Returned tt, w ++ [not_ok message]).

(** First call of the test, lines 146-164: both [default_func] and
    [predicate] omitted. *)
Definition test_string : M (list line) thrown unit :=
  @switchlike _ _ string string unit (copy string) (copy string)
    "foo"%string
    [ ("bar"%string, fail "Wrong case for foo");
      ("foo"%string, pass right_case_for_foo) ]
    default_default_func
    (default_predicate (eq := string_equal)).

(** The test of lines 182-185, [a % b == 0]; [%] truncates. *)
Definition divides (a b : int) : bool := Z.eqb (Z.rem a b) 0.

(** The predicate of the second call. *)
Definition divides_predicate : int -> int -> M (list line) thrown bool :=
  fun a b => ret (divides a b).

(** Second call of the test, lines 167-186. *)
Definition test_int : M (list line) thrown unit :=
  @switchlike _ _ int int unit (copy int) (copy int)
    1%Z
    [ (5%Z, fail "Wrong case for 1") ]
    (pass right_case_for_1)
    divides_predicate.

(** The cases of the third call, lines 193-200. *)
Definition return_cases : list (int * std_function unit thrown int) :=
  [ (1%Z, ret 5%Z) ].

(** Third call of the test, lines 189-204: [predicate] omitted. *)
Definition test_return : M unit thrown int :=
  @switchlike _ _ int int int (copy int) (copy int)
    1%Z
    return_cases
    (ret (-1)%Z)
    (default_predicate (eq := int_equal)).

Definition predicate_failure : thrown := runtime_error "predicate".

(** A predicate that throws on every call. *)
Definition throwing_predicate : int -> int -> M unit thrown bool :=
  fun _ _ => throw predicate_failure.

(** [switchlike<const int, const int, int>] on the cases of the third test
    call, with [throwing_predicate]. *)
Definition run_throwing_predicate : run unit thrown int int int :=
  observed_switchlike (case_to_input := copy int) (input_to_case := copy int)
    1%Z return_cases (ret (-1)%Z) throwing_predicate tt.

(** Cases of which the second, the first to match the input 1, has a body
    that throws, as an empty [std::function] does when called. *)
Definition throwing_cases : list (int * std_function unit thrown int) :=
  [ (5%Z, ret 0%Z); (1%Z, throw bad_function_call); (1%Z, ret 7%Z) ].

Definition run_throwing_case : run unit thrown int int int :=
  observed_switchlike (case_to_input := copy int) (input_to_case := copy int)
    1%Z throwing_cases (ret (-1)%Z) (default_predicate (eq := int_equal)) tt.

(** [switchlike<unsigned char, int, int>(1, {{257, ...}}, ...)] with
    [predicate] omitted: the key 257 is not equal to the input 1. *)
Definition run_narrowed_key : run unit thrown unsigned_char int int :=
  observed_switchlike
    (case_to_input := int_to_unsigned_char)
    (input_to_case := unsigned_char_to_int)
    1%Z [ (257%Z, ret 5%Z) ] (ret (-1)%Z)
    (default_predicate (eq := int_equal_unsigned_char)) tt.

(** Three cases for an input of type [unsigned char]: the key of the first
    is not equal to the input 1, those of the second and third are. *)
Definition shadowed_cases : list (int * std_function unit thrown int) :=
  [ (257%Z, ret 5%Z); (1%Z, ret 6%Z); (1%Z, ret 7%Z) ].

(** [switchlike<unsigned char, int, int>(1, {{257, ...}, {1, ...},
    {1, ...}}, ...)] with [predicate] omitted. *)
Definition run_shadowed : run unit thrown unsigned_char int int :=
  observed_switchlike
    (case_to_input := int_to_unsigned_char)
    (input_to_case := unsigned_char_to_int)
    1%Z shadowed_cases (ret (-1)%Z)
    (default_predicate (eq := int_equal_unsigned_char)) tt.

(** The test [[] (unsigned char a, int b) { return b > 255; }]. *)
Definition above_255 (a : unsigned_char) (b : int) : bool := Z.ltb 255 b.

Definition above_255_predicate
  : unsigned_char -> int -> M unit thrown bool :=
  fun a b => ret (above_255 a b).

(** One case, whose key 1000 passes [above_255]. *)
Definition large_key_cases : list (int * std_function unit thrown int) :=
  [ (1000%Z, ret 5%Z) ].

(** [switchlike<unsigned char, int, int>(1, {{1000, ...}}, ...,
    above_255_predicate)]. *)
Definition run_large_key : run unit thrown unsigned_char int int :=
  observed_switchlike
    (case_to_input := int_to_unsigned_char)
    (input_to_case := unsigned_char_to_int)
    1%Z large_key_cases (ret (-1)%Z) above_255_predicate tt.

(** Three cases, of which the second and the third match the input 6 under
    [divides]. *)
Definition multiples_cases : list (int * std_function unit thrown int) :=
  [ (4%Z, ret 40%Z); (3%Z, ret 30%Z); (2%Z, ret 20%Z) ].

Definition run_two_matches : run unit thrown int int int :=
  observed_switchlike (case_to_input := copy int) (input_to_case := copy int)
    6%Z multiples_cases (ret (-1)%Z) (fun a b => ret (divides a b)) tt.

(** A call without cases: input 7, default body returning 42. *)
Definition run_no_cases : run unit thrown int int int :=
  observed_switchlike (case_to_input := copy int) (input_to_case := copy int)
    7%Z [] (ret 42%Z) (default_predicate (eq := int_equal)) tt.

(** An equality that is not symmetric: a key matches the inputs it is a
    prefix of. *)
Definition key_prefix_of_input : EqualityComparable string string :=
  fun key input => String.prefix key input.

Definition input_prefix_of_key : EqualityComparable string string :=
  fun input key => String.prefix input key.

(** [unsigned char == int]: the left operand is promoted to [int]. *)
Definition unsigned_char_equal_int : EqualityComparable unsigned_char int :=
  fun k i => Z.eqb (unsigned_char_to_int k) i.

(** Keys of type [unsigned char] for an input of type [int]: each key goes
    to [int] and back unchanged. *)
Definition widened_cases : list (unsigned_char * std_function unit thrown int) :=
  [ (200%Z, ret 1%Z); (7%Z, ret 2%Z) ].

(** Cases whose bodies only ever [pass]. *)
Definition passing_cases : list (int * std_function (list line) thrown unit) :=
  [ (5%Z, pass "five"); (1%Z, pass "one") ].

(** Cases without a return value, every body of which would [fail]. *)
Definition failing_cases : list (int * std_function (list line) thrown unit) :=
  [ (5%Z, fail "five"); (2%Z, fail "two") ].

(** A journal without a failed line. *)
Definition all_ok (w : list line) : Prop :=
  Forall (fun l => match l with ok _ => True | not_ok _ => False end) w.

(** The table of the example of lines 39-59: "foo" becomes 1, "bar"
    becomes 2. *)
Definition foo_bar_table : list (string * int) :=
  [ ("foo"%string, 1%Z); ("bar"%string, 2%Z) ].

Definition bar : string := "bar".
Definition baz : string := "baz".

End Scenarios.

(** ** The function as a translation

    The use the source documents first (lines 11-13 and 37-62): every case
    body returns a constant, so that the cases are a table from keys to
    results. *)
Definition translation_cases {world exn K R : Type} (table : list (K * R))
  : list (K * std_function world exn R) :=
  map (fun kv => (fst kv, ret (snd kv))) table.

(** * Properties *)

(** ** The monad *)

Lemma bind_returned {world exn A B : Type}
  (m : M world exn A) (k : A -> M world exn B) (w w' : world) (a : A) :
  m w = (Returned a, w') -> bind m k w = k a w'.
Proof. unfold bind. intros ->. reflexivity. Qed.

Lemma bind_raised {world exn A B : Type}
  (m : M world exn A) (k : A -> M world exn B) (w w' : world) (e : exn) :
  m w = (Raised e, w') -> bind m k w = (Raised e, w').
Proof. unfold bind. intros ->. reflexivity. Qed.

(** ** Reading logs *)

Section Logs.

Context {world exn : Type}.
Context {input_type case_type return_type : Type}.
Context {case_to_input : Convertible case_type input_type}.
Context {input_to_case : Convertible input_type case_type}.

Local Abbreviation event := (event exn input_type case_type return_type).
Local Abbreviation cases_t := (list (case_type * std_function world exn return_type)).


Lemma predicate_verdicts_rejected (input : input_type) (pre : cases_t)
  (t : list event) :
  predicate_verdicts (map (rejected input) pre ++ t)
  = repeat (Returned false) (length pre) ++ predicate_verdicts t.
Proof.
  induction pre as [|c pre IH]; simpl; [reflexivity|].
  now rewrite IH.
Qed.

Lemma predicate_args_rejected (input : input_type) (pre : cases_t)
  (t : list event) :
  predicate_args (map (rejected input) pre ++ t)
  = map (fun c => (input, seen_key c)) pre ++ predicate_args t.
Proof.
  induction pre as [|c pre IH]; simpl; [reflexivity|].
  now rewrite IH.
Qed.

Lemma no_true_among_rejections (m : nat) (o : outcome exn bool) :
  o <> Returned true ->
  ~ In (Returned true) (repeat (Returned false) m ++ [o]).
Proof.
  intros Ho Hin. apply in_app_or in Hin. destruct Hin as [Hin|[Hin|[]]].
  - apply repeat_spec in Hin. discriminate.
  - now apply Ho.
Qed.

Lemma rejections_then_inj (m n : nat) (o o' : outcome exn bool) :
  o <> Returned false -> o' <> Returned false ->
  repeat (Returned false) m ++ [o] = repeat (Returned false) n ++ [o'] ->
  m = n /\ o = o'.
Proof.
  intros Ho Ho'. revert n.
  induction m as [|m IH]; intros [|n]; simpl; intros H.
  - inversion H. auto.
  - inversion H. congruence.
  - inversion H. congruence.
  - inversion H as [H']. apply IH in H'. destruct H'. auto.
Qed.

End Logs.

(** ** From the function to the shape of its calls *)

Section Dispatch.

Context {world exn : Type}.
Context {input_type case_type return_type : Type}.
Context {case_to_input : Convertible case_type input_type}.
Context {input_to_case : Convertible input_type case_type}.

Local Abbreviation event := (event exn input_type case_type return_type).
Local Abbreviation cases_t := (list (case_type * std_function world exn return_type)).

Variable input : input_type.
Variable default_func : std_function world exn return_type.
Variable predicate : input_type -> case_type -> M world exn bool.

(** One turn of the loop, lines 132-136. *)
Lemma switchlike_cons (c : case_type * std_function world exn return_type)
  (rest : cases_t) (w : world) :
  switchlike input (c :: rest) default_func predicate w
  = match predicate input (seen_key c) w with
    | (Returned true, w1) => snd c w1
    | (Returned false, w1) => switchlike input rest default_func predicate w1
    | (Raised e, w1) => (Raised e, w1)
    end.
Proof.
  unfold seen_key, caze_of. simpl. unfold bind.
  destruct (predicate input _ w) as [[[|]|e] w1]; reflexivity.
Qed.

(** Wrapping the callables changes nothing but the log: the observed loop
    appends to the log the calls of a derivation of [dispatch]. *)
Lemma switchlike_observed (cases : cases_t) :
  forall (n : nat) (w : world) (t0 : list event),
  exists t o w',
    switchlike input (observe_cases n cases)
      (observe (@DefaultCall _ _ _ _) default_func)
      (observe_predicate predicate) (w, t0) = (o, (w', t0 ++ t))
    /\ dispatch input default_func predicate n cases w t o w'.
Proof.
  induction cases as [|c rest IH]; intros n w t0.
  - simpl. unfold observe. simpl.
    destruct (default_func w) as [o w'] eqn:Hd.
    exists [DefaultCall o], o, w'. split; [reflexivity|].
    now constructor.
  - simpl. unfold bind, observe_predicate, observe at 1. simpl.
    change (convert (convert (fst c))) with (seen_key c).
    destruct (predicate input (seen_key c) w) as [[[|]|e] w1] eqn:Hp.
    + unfold observe. simpl.
      destruct (snd c w1) as [o w'] eqn:Hf.
      exists [PredicateCall input (seen_key c) (Returned true); CaseCall n o], o, w'.
      split.
      * now rewrite <- app_assoc.
      * eapply dispatch_match; eauto.
    + destruct (IH (S n) w1 (t0 ++ [PredicateCall input (seen_key c) (Returned false)]))
        as (t & o & w' & Hrun & Hd).
      exists (PredicateCall input (seen_key c) (Returned false) :: t), o, w'.
      split.
      * rewrite <- app_assoc in Hrun. exact Hrun.
      * eapply dispatch_skip; eauto.
    + exists [PredicateCall input (seen_key c) (Raised e)], (Raised e), w1.
      split; [reflexivity|].
      now apply dispatch_raise.
Qed.

(** A derivation of [dispatch] describes the function as it is, unwrapped. *)
Lemma dispatch_switchlike (n : nat) (cases : cases_t) (w w' : world)
  (t : list event) (o : outcome exn return_type) :
  dispatch input default_func predicate n cases w t o w' ->
  switchlike input cases default_func predicate w = (o, w').
Proof.
  induction 1 as [n w o w' Hd|n c rest w w1 o w' Hp Hf
                 |n c rest w w1 t o w' Hp _ IH|n c rest w e w' Hp];
    [exact Hd|rewrite switchlike_cons, Hp..].
  - exact Hf.
  - exact IH.
  - reflexivity.
Qed.

Lemma observed_switchlike_dispatch (cases : cases_t) (w : world) :
  let r := observed_switchlike input cases default_func predicate w in
  dispatch input default_func predicate 0 cases w (log r) (result r) (final r).
Proof.
  unfold observed_switchlike.
  destruct (switchlike_observed cases 0 w []) as (t & o & w' & Hrun & Hd).
  rewrite Hrun. simpl. exact Hd.
Qed.

(** The observed call yields what the plain call yields. *)
Lemma observed_switchlike_plain (cases : cases_t) (w : world) :
  let r := observed_switchlike input cases default_func predicate w in
  switchlike input cases default_func predicate w = (result r, final r).
Proof.
  intro r. eapply dispatch_switchlike. apply observed_switchlike_dispatch.
Qed.

End Dispatch.

(** ** What the derivations say *)

Section Shapes.

Context {world exn : Type}.
Context {input_type case_type return_type : Type}.
Context {case_to_input : Convertible case_type input_type}.
Context {input_to_case : Convertible input_type case_type}.

Local Abbreviation event := (event exn input_type case_type return_type).
Local Abbreviation cases_t := (list (case_type * std_function world exn return_type)).

Variable input : input_type.
Variable default_func : std_function world exn return_type.
Variable predicate : input_type -> case_type -> M world exn bool.

Lemma dispatch_shape (n : nat) (cases : cases_t) (w w' : world)
  (t : list event) (o : outcome exn return_type) :
  dispatch input default_func predicate n cases w t o w' ->
  shape input n cases t o.
Proof.
  induction 1 as [n w o w' Hd|n c rest w w1 o w' Hp Hf
                 |n c rest w w1 t o w' Hp _ IH|n c rest w e w' Hp].
  - now apply shape_default.
  - apply shape_case with (pre := []) (c := c) (post := rest); [reflexivity|].
    simpl. now rewrite Nat.add_0_r.
  - destruct IH as [pre c' post Hc Ht|Ht|pre c' post e Hc Ht Ho].
    + apply shape_case with (pre := c :: pre) (c := c') (post := post); [now rewrite Hc|].
      rewrite Ht. simpl. now rewrite Nat.add_succ_r.
    + apply shape_default. now rewrite Ht.
    + apply shape_raise with (pre := c :: pre) (c := c') (post := post) (e := e);
        [now rewrite Hc| |exact Ho].
      now rewrite Ht.
  - now apply shape_raise with (pre := []) (c := c) (post := rest) (e := e).
Qed.

(** Only the last call of a log can have thrown, and the loop yields what
    that call threw. *)
Lemma dispatch_last_call (n : nat) (cases : cases_t) (w w' : world)
  (t : list event) (o : outcome exn return_type) :
  dispatch input default_func predicate n cases w t o w' ->
  exists t1 ev, t = t1 ++ [ev]
    /\ Forall (fun x => raised_by x = None) t1
    /\ raised_by ev = raised o.
Proof.
  induction 1 as [n w o w' Hd|n c rest w w1 o w' Hp Hf
                 |n c rest w w1 t o w' Hp _ IH|n c rest w e w' Hp].
  - exists [], (DefaultCall o). auto.
  - exists [PredicateCall input (seen_key c) (Returned true)], (CaseCall n o).
    repeat split. now constructor.
  - destruct IH as (t1 & ev & -> & Hall & Hev).
    exists (PredicateCall input (seen_key c) (Returned false) :: t1), ev.
    repeat split; [now constructor|exact Hev].
  - exists [], (PredicateCall input (seen_key c) (Raised e)). auto.
Qed.

(** At most one predicate call per case, and one body. *)
Lemma dispatch_length (n : nat) (cases : cases_t) (w w' : world)
  (t : list event) (o : outcome exn return_type) :
  dispatch input default_func predicate n cases w t o w' ->
  length t <= S (length cases).
Proof.
  induction 1; simpl in *; lia.
Qed.

(** Every verdict in the log is what some call of the predicate, on the
    arguments recorded with it, yielded. *)
Lemma dispatch_verdicts (n : nat) (cases : cases_t) (w w' : world)
  (t : list event) (o : outcome exn return_type) :
  dispatch input default_func predicate n cases w t o w' ->
  forall a b v, In (PredicateCall a b v) t ->
    exists w1 w2, predicate a b w1 = (v, w2).
Proof.
  induction 1 as [n w o w' Hd|n c rest w w1 o w' Hp Hf
                 |n c rest w w1 t o w' Hp _ IH|n c rest w e w' Hp];
    intros a b v Hin.
  - destruct Hin as [Heq|[]]. discriminate.
  - destruct Hin as [Heq|[Heq|[]]]; [|discriminate].
    injection Heq as <- <- <-. now exists w, w1.
  - destruct Hin as [Heq|Hin]; [|now apply IH].
    injection Heq as <- <- <-. now exists w, w1.
  - destruct Hin as [Heq|[]]. injection Heq as <- <- <-. now exists w, w'.
Qed.

(** If the predicate, whatever the state, answers [false] on the key it is
    given for each case of [pre] and [true] on the key it is given for [c],
    the loop run on [pre ++ c :: post] rejects [pre], accepts [c] and calls
    the body of [c]; it never looks at [post]. *)
Lemma dispatch_accepts (pre : cases_t)
  (c : case_type * std_function world exn return_type) (post : cases_t) :
  (forall c' w1, In c' pre ->
     fst (predicate input (seen_key c') w1) = Returned false) ->
  (forall w1, fst (predicate input (seen_key c) w1) = Returned true) ->
  forall n w t o w',
    dispatch input default_func predicate n (pre ++ c :: post) w t o w' ->
    t = map (rejected input) pre
        ++ [PredicateCall input (seen_key c) (Returned true);
            CaseCall (n + length pre) o]
    /\ exists w1, snd c w1 = (o, w').
Proof.
  intros Hpre Hc. induction pre as [|c0 pre IH]; intros n w t o w' Hd.
  - simpl in Hd. inversion Hd as [|? ? ? ? w1 ? ? Hp Hf
                                  |? ? ? ? w1 ? ? ? Hp _|? ? ? ? ? ? Hp]; subst.
    + simpl. rewrite Nat.add_0_r. split; [reflexivity|]. now exists w1.
    + specialize (Hc w). rewrite Hp in Hc. discriminate.
    + specialize (Hc w). rewrite Hp in Hc. discriminate.
  - simpl in Hd.
    pose proof (Hpre c0 w (or_introl eq_refl)) as Hc0.
    inversion Hd as [|? ? ? ? w1 ? ? Hp Hf
                     |? ? ? ? w1 t1 ? ? Hp Hrest|? ? ? ? ? ? Hp]; subst.
    + rewrite Hp in Hc0. discriminate.
    + destruct (IH (fun c' w2 Hin => Hpre c' w2 (or_intror Hin))
                  (S n) w1 t1 o w' Hrest) as [-> Hbody].
      simpl. rewrite Nat.add_succ_r. split; [reflexivity|exact Hbody].
    + rewrite Hp in Hc0. discriminate.
Qed.

(** If the predicate, whatever the state, answers [false] on the key it is
    given for every case, the loop rejects them all, one call each, and
    calls the default body. *)
Lemma dispatch_rejects (n : nat) (cases : cases_t) (w w' : world)
  (t : list event) (o : outcome exn return_type) :
  (forall c' w1, In c' cases ->
     fst (predicate input (seen_key c') w1) = Returned false) ->
  dispatch input default_func predicate n cases w t o w' ->
  t = map (rejected input) cases ++ [DefaultCall o].
Proof.
  intros Hno.
  induction 1 as [n w o w' Hd|n c rest w w1 o w' Hp Hf
                 |n c rest w w1 t o w' Hp _ IH|n c rest w e w' Hp];
    try (pose proof (Hno c w (or_introl eq_refl)) as Hv; rewrite Hp in Hv;
         simpl in Hv).
  - reflexivity.
  - discriminate.
  - simpl. rewrite IH; [reflexivity|].
    intros c' w2 Hin. apply Hno. now right.
  - discriminate.
Qed.

End Shapes.

Lemma split_at_raise {A : Type} (a b t1 : list A) (x ev : A) :
  a ++ x :: b = t1 ++ [ev] -> (b = [] /\ x = ev) \/ In x t1.
Proof.
  destruct (exists_last (l := x :: b)) as (b' & y & Hb); [discriminate|].
  intros H. destruct b as [|z b].
  - left. apply app_inj_tail in H. now destruct H.
  - right. rewrite Hb in H.
    destruct b' as [|x' b'']; [destruct b; discriminate|].
    injection Hb as -> Hb.
    rewrite app_assoc in H. apply app_inj_tail in H. destruct H as [<- _].
    apply in_or_app. right. now left.
Qed.

(** * The claims *)

Section Claims.

Context {world exn : Type}.
Context {input_type case_type return_type : Type}.
Context {case_to_input : Convertible case_type input_type}.
Context {input_to_case : Convertible input_type case_type}.

Local Abbreviation event := (event exn input_type case_type return_type).
Local Abbreviation cases_t := (list (case_type * std_function world exn return_type)).

Variable input : input_type.
Variable cases : cases_t.
Variable default_func : std_function world exn return_type.
Variable predicate : input_type -> case_type -> M world exn bool.
Variable w : world.


(** Once a predicate call of a run has returned true, the log is settled:
    one rejection per earlier case, in sequence order, that call, and the
    body of its case as the next and last call. *)
Lemma short_circuit_after_true_verdict :
  let r := observed_switchlike input cases default_func predicate w in
  In (Returned true) (predicate_verdicts (log r)) ->
  exists pre c post,
    cases = pre ++ c :: post
    /\ log r = map (rejected input) pre
               ++ [PredicateCall input (seen_key c) (Returned true);
                   CaseCall (length pre) (result r)].
Proof.
  intros r Hin.
  destruct (dispatch_shape (observed_switchlike_dispatch input default_func predicate cases w))
    as [pre c post Hc Ht|Ht|pre c post e Hc Ht Ho]; fold r in Ht.
  - exists pre, c, post. auto.
  - exfalso. rewrite Ht, predicate_verdicts_rejected in Hin.
    simpl in Hin. rewrite app_nil_r in Hin.
    apply repeat_spec in Hin. discriminate.
  - exfalso. rewrite Ht, predicate_verdicts_rejected in Hin.
    revert Hin. apply no_true_among_rejections. discriminate.
Qed.

(** C7.  An exception thrown by a call to the predicate, to a case body or
    to the default body ends the call to [switchlike]: the throwing call is
    the last call made, and [switchlike] ends with the very exception it
    threw. *)
Theorem exceptions_propagate_unchanged (t1 t2 : list event) (ev : event)
  (e : exn) :
  let r := observed_switchlike input cases default_func predicate w in
  log r = t1 ++ ev :: t2 ->
  raised_by ev = Some e ->
  t2 = [] /\ result r = Raised e.
Proof.
  intros r Hlog Hev.
  destruct (dispatch_last_call (observed_switchlike_dispatch input default_func predicate cases w))
    as (t & last & Ht & Hquiet & Hlast); fold r in Ht, Hlast.
  rewrite Ht in Hlog. symmetry in Hlog.
  apply split_at_raise in Hlog. destruct Hlog as [[-> ->]|Hin].
  - split; [reflexivity|].
    rewrite Hlast in Hev. destruct (result r); simpl in Hev; congruence.
  - rewrite Forall_forall in Hquiet. apply Hquiet in Hin. congruence.
Qed.

(** C8.  The callables being calls that end, by returning or by throwing
    (their type says so), a call to [switchlike] on a finite case sequence
    ends, after at most one predicate call per case and one body: it
    returns a result, or it ends with an exception, and then its last call,
    to the predicate or to a body, threw that exception. *)
Theorem switchlike_terminates :
  exists o w' t,
    observed_switchlike input cases default_func predicate w = Run o w' t
    /\ switchlike input cases default_func predicate w = (o, w')
    /\ length t <= S (length cases)
    /\ ((exists v, o = Returned v)
        \/ (exists e t1 ev, o = Raised e /\ t = t1 ++ [ev]
                            /\ raised_by ev = Some e)).
Proof.
  pose proof (observed_switchlike_dispatch input default_func predicate cases w) as Hd.
  pose proof (observed_switchlike_plain input default_func predicate cases w) as Hplain.
  cbv zeta in Hd, Hplain.
  destruct (observed_switchlike input cases default_func predicate w)
    as [o w' t]; simpl in Hd, Hplain.
  exists o, w', t.
  split; [reflexivity|]. split; [exact Hplain|].
  split; [exact (dispatch_length Hd)|].
  destruct o as [v|e]; [left; now exists v|right].
  destruct (dispatch_last_call Hd) as (t1 & ev & Ht & _ & Hev).
  exists e, t1, ev. auto.
Qed.

(** First match wins, and the loop stops there, for keys that the
    conversion of line 132 leaves alone: if each case of [pre] and the case
    [c] has a key that is itself again after going to [input_type] and
    back, and the predicate, whatever the state, answers [false] on the
    keys of [pre] and [true] on the key of [c], then the call on
    [pre ++ c :: post] rejects [pre], accepts [c], runs the body of [c],
    whose outcome is its own, and does nothing else. *)
Lemma first_match_wins_on_round_trip_keys (pre post : cases_t)
  (c : case_type * std_function world exn return_type) :
  (forall c', In c' (pre ++ [c]) -> seen_key c' = fst c') ->
  (forall c' w1, In c' pre ->
     fst (predicate input (fst c') w1) = Returned false) ->
  (forall w1, fst (predicate input (fst c) w1) = Returned true) ->
  let r := observed_switchlike input (pre ++ c :: post) default_func
             predicate w in
  log r = map (fun c' => PredicateCall input (fst c') (Returned false)) pre
          ++ [PredicateCall input (fst c) (Returned true);
              CaseCall (length pre) (result r)]
  /\ exists w1, snd c w1 = (result r, final r).
Proof.
  intros Hback Hpre Hc r.
  assert (seen_key c = fst c) as Hkey.
  { apply Hback, in_or_app. right. now left. }
  assert (forall c', In c' pre -> seen_key c' = fst c') as Hkeys.
  { intros c' Hin. apply Hback, in_or_app. now left. }
  destruct (@dispatch_accepts _ _ _ _ _ _ _ input default_func predicate
              pre c post) with (n := 0) (w := w) (t := log r)
              (o := result r) (w' := final r) as [Hlog Hbody].
  - intros c' w1 Hin. rewrite (Hkeys c' Hin). now apply Hpre.
  - intros w1. rewrite Hkey. apply Hc.
  - apply observed_switchlike_dispatch.
  - split; [|exact Hbody].
    rewrite Hlog, Hkey. f_equal.
    apply map_ext_in. intros c' Hin. unfold rejected.
    now rewrite (Hkeys c' Hin).
Qed.

End Claims.


Example throwing_predicate_log :
  log Scenarios.run_throwing_predicate
  = [PredicateCall 1%Z 1%Z (Raised Scenarios.predicate_failure)]
  /\ producer_calls (log Scenarios.run_throwing_predicate) = []
  /\ result Scenarios.run_throwing_predicate
     = Raised Scenarios.predicate_failure.
Proof. repeat split. Qed.

Lemma exceptions_propagate_unchanged_witness :
  (log Scenarios.run_throwing_case
   = [PredicateCall 1%Z 5%Z (Returned false);
      PredicateCall 1%Z 1%Z (Returned true)]
     ++ CaseCall 1 (Raised Scenarios.bad_function_call) :: []
   /\ raised_by (CaseCall (input_type := Z) (case_type := Z) (return_type := Z)
                   1 (Raised Scenarios.bad_function_call))
      = Some Scenarios.bad_function_call)
  /\ (@nil (event Scenarios.thrown Z Z Z) = []
      /\ result Scenarios.run_throwing_case
         = Raised Scenarios.bad_function_call).
Proof.
  split; [split; reflexivity|].
  apply (@exceptions_propagate_unchanged unit Scenarios.thrown Z Z Z
           (copy _) (copy _) 1%Z Scenarios.throwing_cases (ret (-1)%Z)
           (default_predicate (eq := Scenarios.int_equal)) tt
           [PredicateCall 1%Z 5%Z (Returned false);
            PredicateCall 1%Z 1%Z (Returned true)]
           []
           (CaseCall 1 (Raised Scenarios.bad_function_call))
           Scenarios.bad_function_call); reflexivity.
Defined.

(** ** The default predicate and the keys it is given *)

Section DefaultPredicate.

Context {world exn : Type}.
Context {input_type case_type return_type : Type}.
Context {case_to_input : Convertible case_type input_type}.
Context {input_to_case : Convertible input_type case_type}.
Context {eq : EqualityComparable case_type input_type}.

Local Abbreviation cases_t := (list (case_type * std_function world exn return_type)).

(** With [predicate] omitted, the body of the case at position [m] is
    called exactly when the key the predicate is given for it, the key
    converted to [input_type] and back, is equal to the input, and that of
    no earlier case is. *)
Lemma default_predicate_selects (input : input_type) (cases : cases_t)
  (default_func : std_function world exn return_type) (w : world)
  (m : nat) (c : case_type * std_function world exn return_type) :
  nth_error cases m = Some c ->
  let r := observed_switchlike input cases default_func default_predicate w in
  In (CaseCall m (result r)) (log r)
  <-> equal_to (seen_key c) input = true
      /\ forall n c', n < m -> nth_error cases n = Some c' ->
           equal_to (seen_key c') input = false.
Proof.
  intros Hc r.
  pose proof (observed_switchlike_dispatch input default_func
                default_predicate cases w) as Hd.
  cbv zeta in Hd. fold r in Hd.
  assert (forall b v, In (PredicateCall input b v) (log r) ->
            v = Returned (equal_to b input)) as Hverdict.
  { intros b v Hin.
    destruct (dispatch_verdicts Hd _ _ _ Hin) as (w1 & w2 & Hcall).
    unfold default_predicate, ret in Hcall. now injection Hcall as <- _. }
  split.
  - intros Hin.
    destruct (dispatch_shape Hd) as [pre c' post Hcases Ht|Ht|pre c' post e Hcases Ht Ho];
      rewrite Ht in Hin; apply in_app_or in Hin;
      (destruct Hin as [Hin|Hin];
       [apply in_map_iff in Hin; destruct Hin as (x & Hx & _); discriminate|]).
    + destruct Hin as [Heq|[Heq|[]]]; [discriminate|].
      injection Heq as Hm. simpl in Hm. subst m.
      rewrite Hcases, nth_error_app2, Nat.sub_diag in Hc by lia.
      injection Hc as ->. split.
      * assert (@Returned exn bool true
                = Returned (equal_to (seen_key c) input)) as Hv.
        { apply Hverdict. rewrite Ht. apply in_or_app. right. now left. }
        now injection Hv as <-.
      * intros n c'' Hn Hnth.
        rewrite Hcases, nth_error_app1 in Hnth by exact Hn.
        apply nth_error_In in Hnth.
        assert (@Returned exn bool false
                = Returned (equal_to (seen_key c'') input)) as Hv.
        { apply Hverdict. rewrite Ht. apply in_or_app. left.
          apply in_map_iff. exists c''. split; [reflexivity|exact Hnth]. }
        now injection Hv as <-.
    + destruct Hin as [Heq|[]]. discriminate.
    + destruct Hin as [Heq|[]]. discriminate.
  - intros [Hp Hbefore].
    destruct (nth_error_split cases m Hc) as (pre & post & Hcases & Hlen).
    rewrite Hcases in Hd.
    destruct (@dispatch_accepts _ _ _ _ _ _ _ input default_func
                default_predicate pre c post) with (n := 0) (w := w)
                (t := log r) (o := result r) (w' := final r) as [Hlog _].
    + intros c' w1 Hin. unfold default_predicate, ret. simpl. f_equal.
      destruct (In_nth_error _ _ Hin) as (n & Hn).
      apply (Hbefore n).
      * rewrite <- Hlen. apply nth_error_Some. now rewrite Hn.
      * rewrite Hcases, nth_error_app1; [exact Hn|].
        apply nth_error_Some. now rewrite Hn.
    + intros w1. unfold default_predicate, ret. simpl. now rewrite Hp.
    + exact Hd.
    + rewrite Hlog, Hlen. apply in_or_app. right. right. now left.
Qed.

(** The arguments of the predicate calls of a run: the input and, for each
    of the first cases, the key converted to [input_type] and back. *)
Lemma predicate_args_of_run (input : input_type) (cases : cases_t)
  (default_func : std_function world exn return_type)
  (predicate : input_type -> case_type -> M world exn bool) (w : world) :
  let r := observed_switchlike input cases default_func predicate w in
  exists m, m <= length cases
    /\ predicate_args (log r)
       = map (fun c => (input, seen_key c)) (firstn m cases).
Proof.
  intro r.
  destruct (dispatch_shape (observed_switchlike_dispatch input default_func predicate cases w))
    as [pre c post Hc Ht|Ht|pre c post e Hc Ht Ho]; fold r in Ht; rewrite Ht.
  - exists (length (pre ++ [c])). split.
    + rewrite Hc, !length_app. simpl. lia.
    + rewrite predicate_args_rejected. simpl.
      replace (pre ++ c :: post) with ((pre ++ [c]) ++ post) in Hc
        by now rewrite <- app_assoc.
      rewrite Hc, firstn_app, Nat.sub_diag, firstn_all. simpl.
      now rewrite app_nil_r, map_app.
  - exists (length cases). split; [lia|].
    rewrite predicate_args_rejected, firstn_all. simpl. now rewrite app_nil_r.
  - exists (length (pre ++ [c])). split.
    + rewrite Hc, !length_app. simpl. lia.
    + rewrite predicate_args_rejected. simpl.
      replace (pre ++ c :: post) with ((pre ++ [c]) ++ post) in Hc
        by now rewrite <- app_assoc.
      rewrite Hc, firstn_app, Nat.sub_diag, firstn_all. simpl.
      now rewrite app_nil_r, map_app.
Qed.

End DefaultPredicate.

(** C4, at the input where the code departs from it.  In
    [switchlike<unsigned char, int, int>(1, {{257, body}}, default_func)]
    the key 257 is not equal to the input 1, and yet the case is selected:
    the loop variable holds the key as an [unsigned char], so the default
    predicate compares 1 with 1, and [body] runs instead of
    [default_func]. *)
Theorem narrowed_key_selected_though_unequal :
  equal_to (EqualityComparable := Scenarios.int_equal_unsigned_char)
    257%Z 1%Z = false
  /\ log Scenarios.run_narrowed_key
     = [PredicateCall 1%Z 1%Z (Returned true); CaseCall 0 (Returned 5%Z)]
  /\ result Scenarios.run_narrowed_key = Returned 5%Z.
Proof. repeat split. Qed.

(** C2, at an input where the code departs from it.  In
    [switchlike<unsigned char, int, int>(1, {{257, a}, {1, b}, {1, c}},
    default_func)] the predicate [key == input] holds of the second and
    third cases and not of the first, so the earliest matching case is the
    second and [b] is to run.  The loop variable holds the first key as the
    [unsigned char] 1: the predicate is called once, on 1 and 1, and [a]
    runs. *)
Theorem narrowed_key_shadows_first_match :
  map (fun c => fst (default_predicate (world := unit)
                       (exn := Scenarios.thrown)
                       (eq := Scenarios.int_equal_unsigned_char)
                       1%Z (fst c) tt))
    Scenarios.shadowed_cases
  = [Returned false; Returned true; Returned true]
  /\ log Scenarios.run_shadowed
     = [PredicateCall 1%Z 1%Z (Returned true); CaseCall 0 (Returned 5%Z)]
  /\ result Scenarios.run_shadowed = Returned 5%Z.
Proof. repeat split. Qed.

(** C3, at an input where the code departs from it.  In
    [switchlike<unsigned char, int, int>(1, {{1000, body}}, default_func,
    predicate)] with [predicate(a, b)] being [b > 255], the one case
    matches, so [body] is to run and [default_func] is not.  The loop
    variable holds the key as the [unsigned char] 232: the predicate is
    called on 1 and 232, answers false, and [default_func] runs. *)
Theorem large_key_matches_but_default_runs :
  map (fun c => fst (Scenarios.above_255_predicate 1%Z (fst c) tt))
    Scenarios.large_key_cases
  = [Returned true]
  /\ log Scenarios.run_large_key
     = [PredicateCall 1%Z 232%Z (Returned false);
        DefaultCall (Returned (-1)%Z)]
  /\ result Scenarios.run_large_key = Returned (-1)%Z.
Proof. repeat split. Qed.

(** Where the key type is the input type, the claim holds: the body of the
    case at position [m] is called exactly when its key is equal to the
    input and no earlier key is. *)
Lemma default_predicate_same_type {world exn A R : Type}
  {eq : EqualityComparable A A} (input : A)
  (cases : list (A * std_function world exn R))
  (default_func : std_function world exn R) (w : world)
  (m : nat) (c : A * std_function world exn R) :
  nth_error cases m = Some c ->
  let r := observed_switchlike (case_to_input := copy A)
             (input_to_case := copy A)
             input cases default_func default_predicate w in
  In (CaseCall m (result r)) (log r)
  <-> equal_to (fst c) input = true
      /\ forall n c', n < m -> nth_error cases n = Some c' ->
           equal_to (fst c') input = false.
Proof.
  intros Hc.
  exact (default_predicate_selects (case_to_input := copy A)
           (input_to_case := copy A) input cases default_func w m Hc).
Qed.

(** C5.  With an empty case sequence the call is a call to the default
    producer and nothing else: it yields what the default producer yields
    and leaves the state it leaves, whatever the input and the predicate.
    With input 7, no cases and a default producer returning 42, the call
    returns 42. *)
Theorem empty_cases_invoke_default :
  (forall (world exn input_type case_type return_type : Type)
     (case_to_input : Convertible case_type input_type)
     (input_to_case : Convertible input_type case_type)
     (input : input_type)
     (default_func : std_function world exn return_type)
     (predicate : input_type -> case_type -> M world exn bool)
     (w : world),
     switchlike input [] default_func predicate w = default_func w
     /\ observed_switchlike input [] default_func predicate w
        = Run (fst (default_func w)) (snd (default_func w))
              [DefaultCall (fst (default_func w))])
  /\ (forall (predicate : Z -> Z -> M unit Scenarios.thrown bool),
        switchlike (case_to_input := copy Z) (input_to_case := copy Z)
          7%Z [] (ret 42%Z) predicate tt = (Returned 42%Z, tt))
  /\ result Scenarios.run_no_cases = Returned 42%Z.
Proof.
  split; [|split; [intros; reflexivity|reflexivity]].
  intros. split; [reflexivity|].
  unfold observed_switchlike. simpl. unfold observe. simpl.
  now destruct (default_func w).
Qed.

(** C9.  The default predicate, given the input [a] and a key [b],
    evaluates [b == a], the key on the left: the [operator==] it uses is
    the one taking a [case_type] and then an [input_type].  If an
    [operator==] with the operands the other way round exists and the two
    agree, the result is that of [a == b] as well. *)
Theorem default_predicate_key_on_the_left :
  forall (world exn input_type case_type : Type)
    (key_input : EqualityComparable case_type input_type)
    (a : input_type) (b : case_type) (w : world),
    default_predicate (exn := exn) a b w
    = (Returned (equal_to (EqualityComparable := key_input) b a), w)
    /\ forall (input_key : EqualityComparable input_type case_type),
         (forall k i, equal_to (EqualityComparable := key_input) k i
                      = equal_to (EqualityComparable := input_key) i k) ->
         default_predicate (exn := exn) a b w
         = (Returned (equal_to (EqualityComparable := input_key) a b), w).
Proof.
  intros. split; [reflexivity|].
  intros input_key Hsym. unfold default_predicate, ret. now rewrite Hsym.
Qed.

Lemma default_predicate_key_on_the_left_witness :
  (forall k i : Z, equal_to (EqualityComparable := Scenarios.int_equal) k i
                   = equal_to (EqualityComparable := Scenarios.int_equal) i k)
  /\ default_predicate (world := unit) (exn := Scenarios.thrown)
       (eq := Scenarios.int_equal) 1%Z 5%Z tt
     = (Returned (equal_to (EqualityComparable := Scenarios.int_equal) 1%Z 5%Z), tt).
Proof.
  assert (forall k i : Z,
            equal_to (EqualityComparable := Scenarios.int_equal) k i
            = equal_to (EqualityComparable := Scenarios.int_equal) i k) as Hsym.
  { intros k i. apply Z.eqb_sym. }
  split; [exact Hsym|].
  exact (proj2 (@default_predicate_key_on_the_left unit Scenarios.thrown Z Z
                  Scenarios.int_equal 1%Z 5%Z tt)
           Scenarios.int_equal Hsym).
Defined.

(** C10.  Each case is copied into a pair whose key is the case's key
    converted to [input_type]; the predicate is called on the input and, for
    each of the first cases of the sequence in order, on that key converted
    back to [case_type].  Where [case_type] is [input_type] the conversions
    are copies and the predicate is called on the keys as they are. *)
Theorem predicate_sees_converted_keys :
  (forall (world exn input_type case_type return_type : Type)
     (case_to_input : Convertible case_type input_type)
     (input_to_case : Convertible input_type case_type)
     (input : input_type)
     (cases : list (case_type * std_function world exn return_type))
     (default_func : std_function world exn return_type)
     (predicate : input_type -> case_type -> M world exn bool)
     (w : world),
     (forall c : case_type * std_function world exn return_type,
        caze_of c = (case_to_input (fst c), snd c))
     /\ exists m, m <= length cases
        /\ predicate_args
             (log (observed_switchlike input cases default_func predicate w))
           = map (fun c => (input, input_to_case (case_to_input (fst c))))
               (firstn m cases))
  /\ (forall (world exn A return_type : Type)
        (input : A)
        (cases : list (A * std_function world exn return_type))
        (default_func : std_function world exn return_type)
        (predicate : A -> A -> M world exn bool)
        (w : world),
        exists m, m <= length cases
          /\ predicate_args
               (log (observed_switchlike (case_to_input := copy A)
                       (input_to_case := copy A)
                       input cases default_func predicate w))
             = map (fun c => (input, fst c)) (firstn m cases)).
Proof.
  split.
  - intros. split; [reflexivity|].
    exact (predicate_args_of_run input cases default_func predicate w).
  - intros.
    exact (predicate_args_of_run (case_to_input := copy A)
             (input_to_case := copy A) input cases default_func predicate w).
Qed.

(** ** The calls of the source's test, and more *)

(** Lines 146-164: the body of ["foo"] passes, that of ["bar"] is not
    called. *)
Example test_string_passes :
  Scenarios.test_string []
  = (Returned tt, [Scenarios.ok Scenarios.right_case_for_foo]).
Proof. reflexivity. Qed.

(** Lines 167-186: [1 % 5 == 0] does not hold, the default body passes. *)
Example test_int_passes :
  Scenarios.test_int []
  = (Returned tt, [Scenarios.ok Scenarios.right_case_for_1]).
Proof. reflexivity. Qed.

(** Lines 189-205: [y] is 5. *)
Example test_return_is_5 :
  Scenarios.test_return tt = (Returned 5%Z, tt).
Proof. reflexivity. Qed.

(** Of two matching cases, the earlier. *)
Example two_matches_log :
  log Scenarios.run_two_matches
  = [PredicateCall 6%Z 4%Z (Returned false);
     PredicateCall 6%Z 3%Z (Returned true);
     CaseCall 1 (Returned 30%Z)].
Proof. reflexivity. Qed.

(** A case body that throws: the later matching case and the default body
    are not called. *)
Example throwing_case_log :
  log Scenarios.run_throwing_case
  = [PredicateCall 1%Z 5%Z (Returned false);
     PredicateCall 1%Z 1%Z (Returned true);
     CaseCall 1 (Raised Scenarios.bad_function_call)].
Proof. reflexivity. Qed.

(** With an [operator==] that is not symmetric the side of the key shows:
    the key ["foo"] is a prefix of the input ["foobar"], not the converse. *)
Example key_on_the_left_shows :
  default_predicate (world := unit) (exn := Scenarios.thrown)
    (eq := Scenarios.key_prefix_of_input)
    Scenarios.foobar Scenarios.foo tt = (Returned true, tt)
  /\ equal_to (EqualityComparable := Scenarios.input_prefix_of_key)
       Scenarios.foobar Scenarios.foo = false.
Proof. split; reflexivity. Qed.

(** * More on the loop

    Properties of [switchlike] beyond the claims: how calls compose, what
    the function is when the predicate is a plain test, and what it leaves
    alone. *)

Section Composition.

Context {world exn : Type}.
Context {input_type case_type return_type : Type}.
Context {case_to_input : Convertible case_type input_type}.
Context {input_to_case : Convertible input_type case_type}.

Local Abbreviation cases_t := (list (case_type * std_function world exn return_type)).

Variable input : input_type.
Variable default_func : std_function world exn return_type.
Variable predicate : input_type -> case_type -> M world exn bool.

(** X1.  A switch over two case sequences put end to end is the switch over
    the first whose default body is the switch over the second: whatever
    the callables do, lines 132-138 run on [xs ++ ys] do what they do on
    [xs] with [return switchlike(input, ys, default_func, predicate)] as
    the default. *)
Theorem switchlike_app (xs ys : cases_t) (w : world) :
  switchlike input (xs ++ ys) default_func predicate w
  = switchlike input xs (switchlike input ys default_func predicate)
      predicate w.
Proof.
  revert w. induction xs as [|c xs IH]; intros w; [reflexivity|].
  rewrite <- app_comm_cons, !switchlike_cons.
  destruct (predicate input (seen_key c) w) as [[[|]|e] w1];
    [reflexivity|apply IH|reflexivity].
Qed.

(** X2.  When the predicate, on this input, is a test [p] that neither
    throws nor changes the state, the call is a search followed by one call:
    the body of the first case whose key (as the predicate is given it)
    passes the test, else the default body, run in the state of the
    caller. *)
Theorem switchlike_find (p : input_type -> case_type -> bool)
  (cases : cases_t) (w : world) :
  (forall b w', predicate input b w' = (Returned (p input b), w')) ->
  switchlike input cases default_func predicate w
  = match find (fun c => p input (seen_key c)) cases with
    | Some c => snd c w
    | None => default_func w
    end.
Proof.
  intros Hpure. induction cases as [|c rest IH]; [reflexivity|].
  rewrite switchlike_cons, Hpure. simpl.
  destruct (p input (seen_key c)); [reflexivity|exact IH].
Qed.

(** X7.  With such a predicate the cases whose key, taken to [input_type]
    and back as the predicate is given it, does not pass the test are
    inert: dropping them from the sequence changes neither the result nor
    the final state. *)
Theorem switchlike_filter (p : input_type -> case_type -> bool)
  (cases : cases_t) (w : world) :
  (forall b w', predicate input b w' = (Returned (p input b), w')) ->
  switchlike input (filter (fun c => p input (seen_key c)) cases)
    default_func predicate w
  = switchlike input cases default_func predicate w.
Proof.
  intros Hpure. induction cases as [|c rest IH]; [reflexivity|].
  cbn [filter]. destruct (p input (seen_key c)) eqn:Hp.
  - rewrite !switchlike_cons, Hpure, Hp. reflexivity.
  - rewrite IH, switchlike_cons, Hpure, Hp. reflexivity.
Qed.

(** X4.  The loop has no effect of its own: a property of the state that
    every call of the predicate, of each case body and of the default body
    preserves still holds when [switchlike] is left, by [return] or by an
    exception. *)
Theorem switchlike_preserves (I : world -> Prop) (cases : cases_t)
  (w : world) :
  (forall a b w', I w' -> I (snd (predicate a b w'))) ->
  (forall c w', In c cases -> I w' -> I (snd (snd c w'))) ->
  (forall w', I w' -> I (snd (default_func w'))) ->
  I w ->
  I (snd (switchlike input cases default_func predicate w)).
Proof.
  intros Hp Hc Hd. revert w.
  induction cases as [|c rest IH]; intros w Hw; [now apply Hd|].
  rewrite switchlike_cons.
  pose proof (Hp input (seen_key c) w Hw) as Hw1.
  destruct (predicate input (seen_key c) w) as [[[|]|e] w1]; simpl in Hw1.
  - apply Hc; [now left|exact Hw1].
  - apply IH; [|exact Hw1]. intros c' w' Hin. apply Hc. now right.
  - exact Hw1.
Qed.

(** X8.  The number of predicate calls is known beforehand.  If the
    predicate, whatever the state, answers [false] on the key it is given
    (the key taken to [input_type] and back) for each case of [pre] and
    [true] on the key it is given for [c], a call on [pre ++ c :: post]
    makes one predicate call more than [pre] has cases, whatever [post]
    holds; if it answers [false] on the key it is given for every case, a
    call makes one predicate call per case. *)
Theorem predicate_call_count (w : world) :
  (forall (pre post : cases_t)
     (c : case_type * std_function world exn return_type),
     (forall c' w1, In c' pre ->
        fst (predicate input (seen_key c') w1) = Returned false) ->
     (forall w1, fst (predicate input (seen_key c) w1) = Returned true) ->
     length (predicate_verdicts
               (log (observed_switchlike input (pre ++ c :: post)
                       default_func predicate w)))
     = S (length pre))
  /\ (forall cases : cases_t,
        (forall c' w1, In c' cases ->
           fst (predicate input (seen_key c') w1) = Returned false) ->
        length (predicate_verdicts
                  (log (observed_switchlike input cases default_func
                          predicate w)))
        = length cases).
Proof.
  split.
  - intros pre post c Hpre Hc.
    destruct (@dispatch_accepts _ _ _ _ _ _ _ input default_func predicate
                pre c post Hpre Hc 0 w _ _ _
                (observed_switchlike_dispatch input default_func predicate
                   (pre ++ c :: post) w)) as [Hlog _].
    rewrite Hlog, predicate_verdicts_rejected, length_app, repeat_length.
    simpl. lia.
  - intros cases Hno.
    rewrite (dispatch_rejects Hno
               (observed_switchlike_dispatch input default_func predicate
                  cases w)).
    rewrite predicate_verdicts_rejected, length_app, repeat_length.
    simpl. lia.
Qed.

End Composition.

Section Omissions.

Context {world exn : Type}.
Context {input_type case_type return_type : Type}.
Context {case_to_input : Convertible case_type input_type}.
Context {input_to_case : Convertible input_type case_type}.
Context {eq : EqualityComparable case_type input_type}.

(** X3.  Used as a translation, with [predicate] omitted and bodies that
    return constants, the function returns the result of the first entry of
    the table whose key, taken to [input_type] and back, is equal to the
    input, and the default result when there is none; it does not throw and
    leaves the state as it was. *)
Theorem translation_lookup (table : list (case_type * return_type))
  (otherwise : return_type) (input : input_type) (w : world) :
  switchlike (exn := exn) input (translation_cases table) (ret otherwise)
    default_predicate w
  = (Returned
       match find (fun kv => equal_to (input_to_case (case_to_input (fst kv)))
                               input) table with
       | Some kv => snd kv
       | None => otherwise
       end, w).
Proof.
  induction table as [|kv table IH]; [reflexivity|].
  unfold translation_cases. cbn [map find]. rewrite switchlike_cons.
  unfold default_predicate at 1, ret at 1, seen_key, caze_of. cbn [fst snd].
  change (convert (convert (fst kv)))
    with (input_to_case (case_to_input (fst kv))).
  destruct (equal_to (input_to_case (case_to_input (fst kv))) input);
    [reflexivity|exact IH].
Qed.

(** X5.  Without a return value, with [default_func] and [predicate] both
    omitted: when no key (as the predicate is given it) is equal to the
    input, the call does nothing at all; no body runs and the state is the
    one before the call. *)
Theorem no_match_no_default_does_nothing (input : input_type)
  (cases : list (case_type * std_function world exn unit)) (w : world) :
  (forall c, In c cases -> equal_to (seen_key c) input = false) ->
  switchlike input cases default_default_func default_predicate w
  = (Returned tt, w).
Proof.
  induction cases as [|c rest IH]; intros Hno; [reflexivity|].
  rewrite switchlike_cons. unfold default_predicate at 1, ret at 1.
  rewrite (Hno c (or_introl eq_refl)).
  apply IH. intros c' Hin. apply Hno. now right.
Qed.

(** X6.  The conversion of line 132 is harmless where it can be undone: if
    every key of the sequence, taken to [input_type] and back, is the key
    again, then with [predicate] omitted the body of the case at position
    [m] is called exactly when its key is equal to the input and no earlier
    key is. *)
Theorem default_predicate_round_trip (input : input_type)
  (cases : list (case_type * std_function world exn return_type))
  (default_func : std_function world exn return_type) (w : world)
  (m : nat) (c : case_type * std_function world exn return_type) :
  (forall c', In c' cases ->
     input_to_case (case_to_input (fst c')) = fst c') ->
  nth_error cases m = Some c ->
  let r := observed_switchlike input cases default_func default_predicate w in
  In (CaseCall m (result r)) (log r)
  <-> equal_to (fst c) input = true
      /\ forall n c', n < m -> nth_error cases n = Some c' ->
           equal_to (fst c') input = false.
Proof.
  intros Hback Hc r.
  assert (forall n c', nth_error cases n = Some c' -> seen_key c' = fst c')
    as Hseen.
  { intros n c' Hn. apply Hback. eapply nth_error_In, Hn. }
  pose proof (default_predicate_selects input cases default_func w m Hc)
    as Hsel. fold r in Hsel.
  rewrite (Hseen m c Hc) in Hsel. rewrite Hsel.
  split; intros [Hp Hbefore]; (split; [exact Hp|]); intros n c' Hn Hnth.
  - rewrite <- (Hseen n c' Hnth). now apply (Hbefore n).
  - rewrite (Hseen n c' Hnth). now apply (Hbefore n).
Qed.

End Omissions.

(** ** Instances *)

Lemma switchlike_find_witness :
  (forall (b : Z) (w' : unit),
     (fun a b => ret (world := unit) (exn := Scenarios.thrown)
                   (Scenarios.divides a b)) 6%Z b w'
     = (Returned (Scenarios.divides 6%Z b), w'))
  /\ switchlike (case_to_input := copy Z) (input_to_case := copy Z)
       6%Z Scenarios.multiples_cases (ret (-1)%Z)
       (fun a b => ret (Scenarios.divides a b)) tt
     = (Returned 30%Z, tt).
Proof.
  assert (forall (b : Z) (w' : unit),
            (fun a b => ret (world := unit) (exn := Scenarios.thrown)
                          (Scenarios.divides a b)) 6%Z b w'
            = (Returned (Scenarios.divides 6%Z b), w')) as Hpure.
  { intros b w'. reflexivity. }
  split; [exact Hpure|].
  exact (@switchlike_find unit Scenarios.thrown Z Z Z (copy Z) (copy Z)
           6%Z (ret (-1)%Z) (fun a b => ret (Scenarios.divides a b))
           Scenarios.divides Scenarios.multiples_cases tt Hpure).
Defined.

Lemma switchlike_filter_witness :
  (forall (b : Z) (w' : unit),
     (fun a b => ret (world := unit) (exn := Scenarios.thrown)
                   (Scenarios.divides a b)) 6%Z b w'
     = (Returned (Scenarios.divides 6%Z b), w'))
  /\ switchlike (case_to_input := copy Z) (input_to_case := copy Z)
       6%Z [ (3%Z, ret 30%Z); (2%Z, ret 20%Z) ] (ret (-1)%Z)
       (fun a b => ret (world := unit) (exn := Scenarios.thrown)
                     (Scenarios.divides a b)) tt
     = switchlike (case_to_input := copy Z) (input_to_case := copy Z)
         6%Z Scenarios.multiples_cases (ret (-1)%Z)
         (fun a b => ret (Scenarios.divides a b)) tt.
Proof.
  assert (forall (b : Z) (w' : unit),
            (fun a b => ret (world := unit) (exn := Scenarios.thrown)
                          (Scenarios.divides a b)) 6%Z b w'
            = (Returned (Scenarios.divides 6%Z b), w')) as Hpure.
  { intros b w'. reflexivity. }
  split; [exact Hpure|].
  exact (@switchlike_filter unit Scenarios.thrown Z Z Z (copy Z) (copy Z)
           6%Z (ret (-1)%Z) (fun a b => ret (Scenarios.divides a b))
           Scenarios.divides Scenarios.multiples_cases tt Hpure).
Defined.

Lemma pass_keeps_all_ok (message : String.string) (w : list Scenarios.line) :
  Scenarios.all_ok w -> Scenarios.all_ok (snd (Scenarios.pass message w)).
Proof.
  intros Hw. simpl. apply Forall_app. split; [exact Hw|].
  constructor; [exact I|constructor].
Qed.

Lemma switchlike_preserves_witness :
  ((forall (a b : Z) w', Scenarios.all_ok w' ->
      Scenarios.all_ok (snd (Scenarios.divides_predicate a b w')))
   /\ (forall c w', In c Scenarios.passing_cases -> Scenarios.all_ok w' ->
         Scenarios.all_ok (snd (snd c w')))
   /\ (forall w', Scenarios.all_ok w' ->
         Scenarios.all_ok
           (snd (Scenarios.pass Scenarios.right_case_for_1 w')))
   /\ Scenarios.all_ok [])
  /\ Scenarios.all_ok
       (snd (switchlike (case_to_input := copy Z) (input_to_case := copy Z)
               1%Z Scenarios.passing_cases
               (Scenarios.pass Scenarios.right_case_for_1)
               Scenarios.divides_predicate [])).
Proof.
  assert (forall (a b : Z) w', Scenarios.all_ok w' ->
            Scenarios.all_ok (snd (Scenarios.divides_predicate a b w')))
    as Hp.
  { intros a b w' Hw. exact Hw. }
  assert (forall c w', In c Scenarios.passing_cases -> Scenarios.all_ok w' ->
            Scenarios.all_ok (snd (snd c w'))) as Hc.
  { intros c w' [<-|[<-|[]]] Hw; now apply pass_keeps_all_ok. }
  assert (forall w', Scenarios.all_ok w' ->
            Scenarios.all_ok
              (snd (Scenarios.pass Scenarios.right_case_for_1 w'))) as Hd.
  { intros w' Hw. now apply pass_keeps_all_ok. }
  assert (Scenarios.all_ok []) as H0 by constructor.
  split; [repeat apply conj; assumption|].
  exact (@switchlike_preserves (list Scenarios.line) Scenarios.thrown Z Z unit
           (copy Z) (copy Z) 1%Z
           (Scenarios.pass Scenarios.right_case_for_1)
           Scenarios.divides_predicate Scenarios.all_ok
           Scenarios.passing_cases [] Hp Hc Hd H0).
Defined.

Lemma predicate_call_count_witness :
  ((forall (c' : Z * std_function unit Scenarios.thrown Z) (w1 : unit),
      In c' [ (4%Z, ret 40%Z) ] ->
      fst ((fun a b => ret (world := unit) (exn := Scenarios.thrown)
                         (Scenarios.divides a b))
             6%Z (seen_key (case_to_input := copy Z) (input_to_case := copy Z)
                    (return_type := Z) c') w1)
      = Returned false)
   /\ (forall w1 : unit,
         fst ((fun a b => ret (world := unit) (exn := Scenarios.thrown)
                            (Scenarios.divides a b)) 6%Z 3%Z w1)
         = Returned true))
  /\ length (predicate_verdicts (log Scenarios.run_two_matches)) = 2.
Proof.
  assert (forall (c' : Z * std_function unit Scenarios.thrown Z) (w1 : unit),
            In c' [ (4%Z, ret 40%Z) ] ->
            fst ((fun a b => ret (world := unit) (exn := Scenarios.thrown)
                               (Scenarios.divides a b))
                   6%Z (seen_key (case_to_input := copy Z)
                          (input_to_case := copy Z) (return_type := Z) c') w1)
            = Returned false) as Hpre.
  { intros c' w1 [<-|[]]. reflexivity. }
  assert (forall w1 : unit,
            fst ((fun a b => ret (world := unit) (exn := Scenarios.thrown)
                               (Scenarios.divides a b)) 6%Z 3%Z w1)
            = Returned true) as Hc.
  { intros w1. reflexivity. }
  split; [split; [exact Hpre|exact Hc]|].
  exact (proj1 (@predicate_call_count unit Scenarios.thrown Z Z Z
                  (copy Z) (copy Z) 6%Z (ret (-1)%Z)
                  (fun a b => ret (Scenarios.divides a b)) tt)
           [ (4%Z, ret 40%Z) ] [ (2%Z, ret 20%Z) ] (3%Z, ret 30%Z) Hpre Hc).
Defined.

Lemma no_match_no_default_does_nothing_witness :
  (forall c, In c Scenarios.failing_cases ->
     equal_to (EqualityComparable := Scenarios.int_equal)
       (seen_key (case_to_input := copy Z) (input_to_case := copy Z) c) 1%Z
     = false)
  /\ switchlike (case_to_input := copy Z) (input_to_case := copy Z)
       1%Z Scenarios.failing_cases default_default_func
       (default_predicate (eq := Scenarios.int_equal)) []
     = (Returned tt, []).
Proof.
  assert (forall c, In c Scenarios.failing_cases ->
            equal_to (EqualityComparable := Scenarios.int_equal)
              (seen_key (case_to_input := copy Z) (input_to_case := copy Z) c)
              1%Z = false) as Hno.
  { intros c [<-|[<-|[]]]; reflexivity. }
  split; [exact Hno|].
  exact (@no_match_no_default_does_nothing (list Scenarios.line)
           Scenarios.thrown Z Z (copy Z) (copy Z) Scenarios.int_equal
           1%Z Scenarios.failing_cases [] Hno).
Defined.

Lemma default_predicate_round_trip_witness :
  ((forall c', In c' Scenarios.widened_cases ->
      Scenarios.int_to_unsigned_char (Scenarios.unsigned_char_to_int (fst c'))
      = fst c')
   /\ nth_error Scenarios.widened_cases 1 = Some (7%Z, ret 2%Z))
  /\ (let r := observed_switchlike
                 (case_to_input := Scenarios.unsigned_char_to_int)
                 (input_to_case := Scenarios.int_to_unsigned_char)
                 7%Z Scenarios.widened_cases (ret (-1)%Z)
                 (default_predicate
                    (eq := Scenarios.unsigned_char_equal_int)) tt in
      In (CaseCall 1 (result r)) (log r)
      <-> equal_to (EqualityComparable := Scenarios.unsigned_char_equal_int)
            7%Z 7%Z = true
          /\ forall n c', n < 1 ->
               nth_error Scenarios.widened_cases n = Some c' ->
               equal_to (EqualityComparable := Scenarios.unsigned_char_equal_int)
                 (fst c') 7%Z = false).
Proof.
  assert (forall c', In c' Scenarios.widened_cases ->
            Scenarios.int_to_unsigned_char
              (Scenarios.unsigned_char_to_int (fst c')) = fst c') as Hback.
  { intros c' [<-|[<-|[]]]; reflexivity. }
  split; [split; [exact Hback|reflexivity]|].
  exact (@default_predicate_round_trip unit Scenarios.thrown Z Z Z
           Scenarios.unsigned_char_to_int Scenarios.int_to_unsigned_char
           Scenarios.unsigned_char_equal_int
           7%Z Scenarios.widened_cases (ret (-1)%Z) tt 1 (7%Z, ret 2%Z)
           Hback eq_refl).
Defined.

(** The example of lines 39-59: "foo" becomes 1, "bar" becomes 2, anything
    else 0. *)
Example foo_bar_translation :
  let translate (s : String.string) :=
    fst (switchlike (world := unit) (exn := Scenarios.thrown)
           (case_to_input := copy _) (input_to_case := copy _)
           s (translation_cases Scenarios.foo_bar_table) (ret 0%Z)
           (default_predicate (eq := Scenarios.string_equal)) tt) in
  translate Scenarios.foo = Returned 1%Z
  /\ translate Scenarios.bar = Returned 2%Z
  /\ translate Scenarios.baz = Returned 0%Z.
Proof. repeat split. Qed.
